(** * goth: the provider registry of [provider.go]

    A shallow embedding of package [goth]'s provider registry and client
    helpers, together with the properties of the registry that the
    specification states.

    Go maps are reference values, and [Clear] works through a pointer to a
    variable, so the model keeps an explicit store: map objects live on a
    heap, the package variable [providers] and every other addressable
    variable of type [Providers] hold a reference into it (or nil). Run-time
    panics (calling a method on a nil interface, assigning into a nil map,
    storing through a nil pointer) are results of their own. *)

From stdpp Require Import gmap strings list fin_maps.

Open Scope string_scope.

(** ** Go values *)

(** [type Provider interface { Name() string; ... }]: one instance per
    implementing type. [provider.go] itself calls no other method of the
    interface than [Name], which is taken to be a getter: it reads the name
    the provider carries and touches nothing of the registry. *)
Class ProviderImpl (T : Type) := { Name : T → string }.

(** Heap addresses of map objects, variables and [http.Client] values. *)
Abbreviation loc := positive.

(** Go's [error]: nil, or a value carrying its message. *)
Abbreviation error := (option string).

(** [*http.Client]: nil or the address of a client. *)
Abbreviation HTTPClient := (option loc).

(** The run-time panics the code of [provider.go] can raise. *)
Inductive RuntimeError :=
  | NilDereference      (* invalid memory address or nil pointer dereference *)
  | NilMapAssignment.   (* assignment to entry in nil map *)

(** [const NoAuthUrlErrorMessage = "an AuthURL has not been set"] *)
Definition NoAuthUrlErrorMessage : string := "an AuthURL has not been set".

(** [fmt.Errorf("no provider for %s exists", name)], as its message. *)
Definition no_provider_error (name : string) : string :=
  "no provider for " +:+ name +:+ " exists".

Section Registry.
Context {T : Type} `{ProviderImpl T}.

(** A value of interface type [Provider]: nil, or an implementation. *)
Definition Provider := option T.

(** [type Providers map[string]Provider]: nil, or a reference to a map
    object. *)
Definition Providers := option loc.

(** [*Providers]: nil, the address of the package variable [providers], or
    the address of some other variable. *)
Inductive ProvidersPtr :=
  | PNil
  | PGlobal
  | PVar (x : loc).

Record State := mkState {
  maps : gmap loc (gmap string Provider);  (* the map objects *)
  providers : Providers;                   (* var providers *)
  vars : gmap loc Providers;               (* other variables of type Providers *)
  DefaultClient : HTTPClient;              (* http.DefaultClient *)
}.

(** ** Computations: state passing with panics *)

Inductive Result (A : Type) :=
  | Ok (a : A) (s : State)
  | Panic (e : RuntimeError) (s : State).
Global Arguments Ok {A} a s.
Global Arguments Panic {A} e s.

Definition M (A : Type) : Type := State → Result A.

Definition ret {A} (a : A) : M A := λ s, Ok a s.

Definition bind {A B} (m : M A) (k : A → M B) : M B :=
  λ s, match m s with
       | Ok a s' => k a s'
       | Panic e s' => Panic e s'
       end.

Definition panic {A} (e : RuntimeError) : M A := λ s, Panic e s.

Definition gets {A} (f : State → A) : M A := λ s, Ok (f s) s.

Definition modify (f : State → State) : M unit := λ s, Ok tt (f s).

(** The state a computation leaves, however it ends. *)
Definition final_state {A} (r : Result A) : State :=
  match r with
  | Ok _ s => s
  | Panic _ s => s
  end.

(** The value a computation returns, when it does not panic. *)
Definition returned {A} (r : Result A) : option A :=
  match r with
  | Ok a _ => Some a
  | Panic _ _ => None
  end.

Definition set_maps (f : gmap loc (gmap string Provider) → gmap loc (gmap string Provider))
    (s : State) : State :=
  mkState (f (maps s)) (providers s) (vars s) (DefaultClient s).

Definition set_providers (p : Providers) (s : State) : State :=
  mkState (maps s) p (vars s) (DefaultClient s).

Definition set_var (x : loc) (p : Providers) (s : State) : State :=
  mkState (maps s) (providers s) (<[x := p]> (vars s)) (DefaultClient s).

(** ** Map and pointer primitives *)

(** The entries a [Providers] value shows: a nil map reads as an empty
    one. Every map reference of a running program is live; an address the
    heap does not hold reads as empty too. *)
Definition contents (s : State) (p : Providers) : gmap string Provider :=
  match p with
  | None => ∅
  | Some l => default ∅ (maps s !! l)
  end.

(** [p[k]]: the zero value (a nil [Provider]) for a missing key. *)
Definition map_index (p : Providers) (k : string) : M Provider :=
  gets (λ s, default None (contents s p !! k)).

(** [p[k] = v] *)
Definition map_assign (p : Providers) (k : string) (v : Provider) : M unit :=
  match p with
  | None => panic NilMapAssignment
  | Some l => λ s, Ok tt (set_maps <[l := <[k := v]> (contents s p)]> s)
  end.

(** [Providers{}]: a new, empty map object. *)
Definition make_map : M Providers :=
  λ s, let l := fresh (dom (maps s)) in
       Ok (Some l) (set_maps <[l := ∅]> s).

(** [*q] *)
Definition deref (q : ProvidersPtr) : M Providers :=
  match q with
  | PNil => panic NilDereference
  | PGlobal => gets providers
  | PVar x => gets (λ s, default None (vars s !! x))
  end.

(** [*q = p] *)
Definition assign_var (q : ProvidersPtr) (p : Providers) : M unit :=
  match q with
  | PNil => panic NilDereference
  | PGlobal => modify (set_providers p)
  | PVar x => modify (set_var x p)
  end.

(** [provider.Name()] through the interface. *)
Definition call_Name (provider : Provider) : M string :=
  match provider with
  | None => panic NilDereference
  | Some v => ret (Name v)
  end.

(** ** The registry *)

(** [func (p Providers) Use(viders ...Provider)] *)
Fixpoint Use (p : Providers) (viders : list Provider) : M unit :=
  match viders with
  | [] => ret tt
  | provider :: rest =>
      bind (call_Name provider) (λ name,
      bind (map_assign p name provider) (λ _,
      Use p rest))
  end.

(** [func (p Providers) Get(name string) (Provider, error)]: the lookup
    is [providers[name]], in the package variable. *)
Definition Get (p : Providers) (name : string) : M (Provider * error) :=
  bind (gets providers) (λ shared,
  bind (map_index shared name) (λ provider,
  match provider with
  | None => ret (None, Some (no_provider_error name))
  | Some _ => ret (provider, None)
  end)).

(** [func (p *Providers) Clear()] *)
Definition Clear (p : ProvidersPtr) : M unit :=
  bind make_map (λ empty, assign_var p empty).

(** [func UseProviders(viders ...Provider)] *)
Definition UseProviders (viders : list Provider) : M unit :=
  bind (gets providers) (λ shared, Use shared viders).

(** [func GetProviders() Providers] *)
Definition GetProviders : M Providers := gets providers.

(** [func GetProvider(name string) (Provider, error)] *)
Definition GetProvider (name : string) : M (Provider * error) :=
  bind (gets providers) (λ shared, Get shared name).

(** [func ClearProviders()] *)
Definition ClearProviders : M unit := Clear PGlobal.

(** [func HTTPClientWithFallBack(h *http.Client) *http.Client] *)
Definition HTTPClientWithFallBack (h : HTTPClient) : M HTTPClient :=
  match h with
  | Some _ => ret h
  | None => gets DefaultClient
  end.

(** The state when the package has been initialised:
    [var providers = Providers{}], and [http.DefaultClient] points to the
    client [net/http] allocates. *)
Definition init : State :=
  mkState {[ 1%positive := ∅ ]} (Some 1%positive) ∅ (Some 1%positive).

(** [x := Providers{}] for a new variable at address [x]. *)
Definition new_registry (x : loc) : M Providers :=
  bind make_map (λ p, bind (assign_var (PVar x) p) (λ _, ret p)).

(** ** What [Use] amounts to on the entries of one map *)

(** The non-nil providers [Use] reaches: the loop stops, with a panic, at
    the first nil one. *)
Fixpoint live (viders : list Provider) : list T :=
  match viders with
  | Some v :: rest => v :: live rest
  | _ => []
  end.

(** One round of the loop on the map object at [l]. *)
Definition assign (l : loc) (s : State) (v : T) : State :=
  set_maps <[l := <[Name v := Some v]> (contents s (Some l))]> s.

Definition assign_all (l : loc) (ws : list T) (s : State) : State :=
  foldl (assign l) s ws.

(** The same on the entries alone. *)
Definition register (m : gmap string Provider) (ws : list T) : gmap string Provider :=
  foldl (λ m v, <[Name v := Some v]> m) m ws.

(** The last provider of [ws] that reports the name [n]. *)
Definition last_named (n : string) (ws : list T) : option T :=
  last (filter (λ v, Name v = n) ws).

(** ** The package-level functions as the specification words them: the
    instance methods, applied to the one shared registry. *)

Definition shared_Use (viders : list Provider) : M unit :=
  λ s, Use (providers s) viders s.

Definition shared_Get (name : string) : M (Provider * error) :=
  λ s, Get (providers s) name s.

Definition shared_Clear : M unit := Clear PGlobal.

Definition shared_registry : M Providers := λ s, Ok (providers s) s.

(** ** Client programs with a registry of their own *)

(** [p := Providers{}; p.Use(v); return p, p.Get(name)] *)
Definition own_Use_Get (v : Provider) (name : string) : M (Providers * (Provider * error)) :=
  bind (new_registry 1%positive) (λ p,
  bind (Use p [v]) (λ _,
  bind (Get p name) (λ r,
  ret (p, r)))).

(** [UseProviders(shared); p := Providers{}; return p, p.Get(name)] *)
Definition own_Get_unregistered (shared : Provider) (name : string) : M (Providers * (Provider * error)) :=
  bind (UseProviders [shared]) (λ _,
  bind (new_registry 1%positive) (λ p,
  bind (Get p name) (λ r,
  ret (p, r)))).

(** [p := Providers{}; p.Use(a); p.Use(b); return p, p.Get(name)] *)
Definition own_Use_Use_Get (a b : Provider) (name : string) : M (Providers * (Provider * error)) :=
  bind (new_registry 1%positive) (λ p,
  bind (Use p [a]) (λ _,
  bind (Use p [b]) (λ _,
  bind (Get p name) (λ r,
  ret (p, r))))).

(** [UseProviders(shared); p := Providers{}; p.Use(v); p.Clear();
    return p, p.Get(name)] *)
Definition own_Clear_Get (shared v : Provider) (name : string) : M (Providers * (Provider * error)) :=
  bind (UseProviders [shared]) (λ _,
  bind (new_registry 1%positive) (λ p0,
  bind (Use p0 [v]) (λ _,
  bind (Clear (PVar 1%positive)) (λ _,
  bind (deref (PVar 1%positive)) (λ p,
  bind (Get p name) (λ r,
  ret (p, r))))))).

End Registry.

Global Arguments Provider : clear implicits.
Global Arguments State : clear implicits.
Global Arguments Result : clear implicits.
Global Arguments M : clear implicits.

(** ** A provider implementation to run the registry on

    A stand-in implementation of the interface: a name, and a serial number
    that tells two instances of one name apart. *)
Record faux := Faux { faux_name : string; faux_serial : nat }.

#[global] Instance faux_provider : ProviderImpl faux := {| Name := faux_name |}.

(** ** The client context

    [context.Context], as far as the values it carries go. A context is the
    empty one ([context.TODO()], [context.Background()]) or is derived from
    a parent by [context.WithValue(parent, key, val)]; [ctx.Value(key)]
    returns the value of the innermost binding of [key], and nil when no
    binding has it. *)

(** The keys of context values: [oauth2.HTTPClient], or another key. *)
Inductive ContextKey :=
  | HTTPClientKey
  | OtherKey (k : nat).

#[global] Instance ContextKey_eq_dec : EqDecision ContextKey.
Proof. solve_decision. Defined.

(** The values bound in a context: a [*http.Client], or another value. *)
Inductive ContextValue :=
  | ClientValue (h : HTTPClient)
  | OtherValue (v : nat).

Inductive Context :=
  | EmptyContext
  | WithValue (parent : Context) (key : ContextKey) (val : ContextValue).

(** [ctx.Value(key)] *)
Fixpoint Value (ctx : Context) (key : ContextKey) : option ContextValue :=
  match ctx with
  | EmptyContext => None
  | WithValue parent k val => if decide (k = key) then Some val else Value parent key
  end.

(** [func ContextForClient(h *http.Client) context.Context], given the
    context the variable [oauth2.NoContext] holds. *)
Definition ContextForClient (NoContext : Context) (h : HTTPClient) : Context :=
  match h with
  | None => NoContext
  | Some _ => WithValue NoContext HTTPClientKey (ClientValue h)
  end.

(** * Properties *)

Section RegistryFacts.
Context {T : Type} `{ProviderImpl T}.
Implicit Types (s : State T) (p : Providers) (l : loc) (n : string)
  (vs : list (Provider T)) (ws : list T) (m : gmap string (Provider T)).

Lemma State_eq s1 s2 :
  maps s1 = maps s2 → providers s1 = providers s2 → vars s1 = vars s2 →
  DefaultClient s1 = DefaultClient s2 → s1 = s2.
Proof. destruct s1, s2; simpl; intros; subst; reflexivity. Qed.

(** *** The loop of [Use], unfolded *)

Lemma Use_nil p s : Use p [] s = Ok tt s.
Proof. reflexivity. Qed.

Lemma Use_cons_Some l v vs s :
  Use (Some l) (Some v :: vs) s = Use (Some l) vs (assign l s v).
Proof. reflexivity. Qed.

Lemma Use_cons_nil_provider p vs s : Use p (None :: vs) s = Panic NilDereference s.
Proof. reflexivity. Qed.

Lemma Use_nil_map v vs s : Use None (Some v :: vs) s = Panic NilMapAssignment s.
Proof. reflexivity. Qed.

Lemma Use_nil_map_final vs s : final_state (Use None vs s) = s.
Proof. destruct vs as [|[v|] vs]; reflexivity. Qed.

Lemma Use_Some_ok l vs s :
  None ∉ vs → Use (Some l) vs s = Ok tt (assign_all l (live vs) s).
Proof.
  revert s. induction vs as [|[v|] vs IH]; intros s Hnil.
  - reflexivity.
  - rewrite Use_cons_Some, IH; [reflexivity|].
    intros Hin. apply Hnil. by right.
  - exfalso. apply Hnil. by left.
Qed.

Lemma Use_Some_panic l vs s :
  None ∈ vs → Use (Some l) vs s = Panic NilDereference (assign_all l (live vs) s).
Proof.
  revert s. induction vs as [|[v|] vs IH]; intros s Hnil.
  - by apply elem_of_nil in Hnil.
  - rewrite Use_cons_Some, IH; [reflexivity|].
    apply elem_of_cons in Hnil as [?|?]; [discriminate|assumption].
  - reflexivity.
Qed.

Lemma nil_provider_cases vs : None ∈ vs ∨ None ∉ vs.
Proof.
  induction vs as [|[v|] vs [IH|IH]].
  - right. apply not_elem_of_nil.
  - left. by right.
  - right. intros Hin. apply elem_of_cons in Hin as [?|?]; [discriminate|done].
  - left. by left.
  - left. by left.
Qed.

Lemma Use_Some_final l vs s :
  final_state (Use (Some l) vs s) = assign_all l (live vs) s.
Proof.
  destruct (nil_provider_cases vs) as [Hin|Hin].
  - by rewrite Use_Some_panic.
  - by rewrite Use_Some_ok.
Qed.

Lemma live_fmap_Some ws : live (Some <$> ws) = ws.
Proof. induction ws as [|w ws IH]; [reflexivity|]. simpl. f_equal. exact IH. Qed.

Lemma not_nil_fmap_Some ws : (None : Provider T) ∉ (Some <$> ws).
Proof. intros Hin. apply list_elem_of_fmap in Hin as (w & ? & _). discriminate. Qed.

Lemma elem_of_live v vs : v ∈ live vs → Some v ∈ vs.
Proof.
  induction vs as [|[w|] vs IH]; simpl; intros Hin.
  - by apply elem_of_nil in Hin.
  - apply elem_of_cons in Hin as [->|Hin]; [by left|right; auto].
  - by apply elem_of_nil in Hin.
Qed.

(** *** The entries after a run of assignments *)

Lemma register_snoc m ws v :
  register m (ws ++ [v]) = <[Name v := Some v]> (register m ws).
Proof. unfold register. by rewrite foldl_app. Qed.

Lemma register_cons m v ws :
  register m (v :: ws) = register (<[Name v := Some v]> m) ws.
Proof. reflexivity. Qed.

Lemma register_app m ws1 ws2 :
  register m (ws1 ++ ws2) = register (register m ws1) ws2.
Proof. unfold register. by rewrite foldl_app. Qed.

Lemma register_frame m ws n :
  (∀ v, v ∈ ws → Name v ≠ n) → register m ws !! n = m !! n.
Proof.
  revert m. induction ws as [|w ws IH]; intros m Hn; [reflexivity|].
  rewrite register_cons, IH.
  - apply lookup_insert_ne, Hn. by left.
  - intros v Hv. apply Hn. by right.
Qed.

Lemma last_named_snoc n ws v :
  last_named n (ws ++ [v]) = if decide (Name v = n) then Some v else last_named n ws.
Proof.
  unfold last_named. rewrite filter_app, filter_cons, filter_nil.
  case_decide.
  - by rewrite last_snoc.
  - by rewrite app_nil_r.
Qed.

Lemma lookup_register m ws n :
  register m ws !! n =
    match last_named n ws with
    | Some v => Some (Some v)
    | None => m !! n
    end.
Proof.
  induction ws as [|w ws IH] using rev_ind; [reflexivity|].
  rewrite register_snoc, last_named_snoc. case_decide as Hw.
  - subst n. apply lookup_insert_eq.
  - by rewrite lookup_insert_ne.
Qed.

Lemma register_idem m ws : register (register m ws) ws = register m ws.
Proof.
  apply map_eq. intros n. rewrite !lookup_register.
  by destruct (last_named n ws).
Qed.

Lemma register_last_wins m pre v post :
  (∀ w, w ∈ post → Name w ≠ Name v) →
  register m (pre ++ v :: post) !! Name v = Some (Some v).
Proof.
  intros Hpost. rewrite register_app, register_cons, register_frame by done.
  apply lookup_insert_eq.
Qed.

(** *** The state after a run of assignments *)

Lemma contents_assign l s v :
  contents (assign l s v) (Some l) = <[Name v := Some v]> (contents s (Some l)).
Proof. unfold assign, contents at 1. simpl. by rewrite lookup_insert_eq. Qed.

Lemma maps_assign_ne l l' s v :
  l' ≠ l → maps (assign l s v) !! l' = maps s !! l'.
Proof. intros Hne. unfold assign. simpl. by rewrite lookup_insert_ne. Qed.

Lemma assign_all_cons l w ws s :
  assign_all l (w :: ws) s = assign_all l ws (assign l s w).
Proof. reflexivity. Qed.

Lemma assign_all_snoc l ws w s :
  assign_all l (ws ++ [w]) s = assign l (assign_all l ws s) w.
Proof. unfold assign_all. by rewrite foldl_app. Qed.

Lemma contents_assign_all l ws s :
  contents (assign_all l ws s) (Some l) = register (contents s (Some l)) ws.
Proof.
  revert s. induction ws as [|w ws IH]; intros s; [reflexivity|].
  by rewrite assign_all_cons, IH, contents_assign.
Qed.

Lemma maps_assign_all_ne l l' ws s :
  l' ≠ l → maps (assign_all l ws s) !! l' = maps s !! l'.
Proof.
  intros Hne. revert s. induction ws as [|w ws IH]; intros s; [reflexivity|].
  by rewrite assign_all_cons, IH, maps_assign_ne.
Qed.

Lemma maps_assign_all_eq l ws s :
  ws ≠ [] →
  maps (assign_all l ws s) !! l = Some (register (contents s (Some l)) ws).
Proof.
  intros Hws. destruct ws as [|w ws _] using rev_ind; [done|].
  rewrite assign_all_snoc. unfold assign at 1. simpl.
  rewrite lookup_insert_eq. f_equal.
  change (default ∅ (maps (assign_all l ws s) !! l))
    with (contents (assign_all l ws s) (Some l)).
  by rewrite contents_assign_all, register_snoc.
Qed.

Lemma assign_all_unchanged l ws s :
  providers (assign_all l ws s) = providers s
  ∧ vars (assign_all l ws s) = vars s
  ∧ DefaultClient (assign_all l ws s) = DefaultClient s.
Proof.
  revert s. induction ws as [|w ws IH]; intros s; [done|].
  rewrite assign_all_cons. destruct (IH (assign l s w)) as (-> & -> & ->).
  done.
Qed.

Lemma assign_all_idem l ws s :
  assign_all l ws (assign_all l ws s) = assign_all l ws s.
Proof.
  destruct (decide (ws = [])) as [->|Hws]; [reflexivity|].
  destruct (assign_all_unchanged l ws (assign_all l ws s)) as (Hp & Hv & Hd).
  apply State_eq; try assumption.
  apply map_eq. intros l'. destruct (decide (l' = l)) as [->|Hne].
  - rewrite !maps_assign_all_eq by done.
    by rewrite contents_assign_all, register_idem.
  - by rewrite maps_assign_all_ne.
Qed.

Lemma Use_idem p vs s : Use p vs (final_state (Use p vs s)) = Use p vs s.
Proof.
  destruct p as [l|].
  - destruct (nil_provider_cases vs) as [Hin|Hin].
    + rewrite !Use_Some_panic by done. simpl. by rewrite assign_all_idem.
    + rewrite !Use_Some_ok by done. simpl. by rewrite assign_all_idem.
  - by rewrite Use_nil_map_final.
Qed.

(** *** Lookups *)

Lemma Get_eq p n s :
  Get p n s =
    Ok match default None (contents s (providers s) !! n) with
       | Some v => (Some v, None)
       | None => (None, Some (no_provider_error n))
       end s.
Proof.
  cbv [Get bind gets map_index ret].
  destruct (default None (contents s (providers s) !! n)); reflexivity.
Qed.

Lemma Get_receiver_irrelevant p p' n s : Get p n s = Get p' n s.
Proof. by rewrite !Get_eq. Qed.

Lemma GetProvider_eq n s : GetProvider n s = Get (providers s) n s.
Proof. reflexivity. Qed.

Lemma UseProviders_eq vs s : UseProviders vs s = Use (providers s) vs s.
Proof. reflexivity. Qed.

(** *** [Clear] *)

Lemma Clear_var x s :
  ∃ s', Clear (PVar x) s = Ok tt s'
        ∧ contents s' (default None (vars s' !! x)) = ∅
        ∧ providers s' = providers s.
Proof.
  eexists. split; [reflexivity|]. simpl. split; [|reflexivity].
  rewrite lookup_insert_eq. simpl. by rewrite lookup_insert_eq.
Qed.

Lemma ClearProviders_eq s :
  ∃ s' l, ClearProviders s = Ok tt s'
          ∧ providers s' = Some l
          ∧ maps s !! l = None
          ∧ contents s' (providers s') = ∅.
Proof.
  exists (set_providers (Some (fresh (dom (maps s))))
            (set_maps <[fresh (dom (maps s)) := ∅]> s)), (fresh (dom (maps s))).
  split; [reflexivity|]. split; [reflexivity|]. split.
  - apply not_elem_of_dom, is_fresh.
  - simpl. by rewrite lookup_insert_eq.
Qed.

(** On the shared registry, registration and lookup agree. *)
Lemma UseProviders_GetProvider l v s :
  providers s = Some l →
  ∃ s', UseProviders [Some v] s = Ok tt s'
        ∧ GetProvider (Name v) s' = Ok (Some v, None) s'.
Proof.
  intros Hp. exists (assign l s v). split.
  - by rewrite UseProviders_eq, Hp.
  - assert (Hp' : providers (assign l s v) = Some l) by exact Hp.
    rewrite GetProvider_eq, Get_eq, Hp'.
    by rewrite contents_assign, lookup_insert_eq.
Qed.

(** On the shared registry, a lookup after [ClearProviders] finds nothing. *)
Lemma ClearProviders_GetProvider n s :
  ∃ s', ClearProviders s = Ok tt s'
        ∧ GetProvider n s' = Ok (None, Some (no_provider_error n)) s'.
Proof.
  destruct (ClearProviders_eq s) as (s' & l & Hc & _ & _ & He).
  exists s'. split; [done|].
  by rewrite GetProvider_eq, Get_eq, He, lookup_empty.
Qed.

(** On the shared registry, a lookup after registering [ws] returns the
    last provider of [ws] that reports the name, and what was registered
    before when [ws] has none. *)
Lemma UseProviders_GetProvider_last l ws n s :
  providers s = Some l →
  ∃ s', UseProviders (Some <$> ws) s = Ok tt s'
        ∧ returned (GetProvider n s') =
            match last_named n ws with
            | Some v => Some (Some v, None)
            | None => returned (GetProvider n s)
            end.
Proof.
  intros Hp. exists (assign_all l ws s).
  assert (Hp' : providers (assign_all l ws s) = Some l).
  { destruct (assign_all_unchanged l ws s) as (-> & _). exact Hp. }
  split.
  - rewrite UseProviders_eq, Hp, Use_Some_ok by apply not_nil_fmap_Some.
    by rewrite live_fmap_Some.
  - rewrite !GetProvider_eq, !Get_eq, Hp', Hp.
    rewrite contents_assign_all, lookup_register.
    by destruct (last_named n ws).
Qed.

(** On the shared registry, a name nothing is registered under is not
    found. *)
Lemma GetProvider_unregistered n s :
  contents s (providers s) !! n = None →
  GetProvider n s = Ok (None, Some (no_provider_error n)) s.
Proof.
  intros Hn. rewrite GetProvider_eq, Get_eq.
  unfold Provider in *. by rewrite Hn.
Qed.

(** The shared registry is never a nil map once it is not. *)
Lemma shared_registry_not_nil s :
  is_Some (providers s) →
  (∀ p vs, is_Some (providers (final_state (Use p vs s))))
  ∧ (∀ q, is_Some (providers (final_state (Clear q s)))).
Proof.
  intros Hs. split.
  - intros [l|] vs.
    + rewrite Use_Some_final.
      by destruct (assign_all_unchanged l (live vs) s) as (-> & _).
    + by rewrite Use_nil_map_final.
  - intros [| |x]; simpl; [exact Hs|by eexists|exact Hs].
Qed.

(** ** The claims that hold of every registry *)

(** C5. [p.Get(n)] never returns a nil provider together with a nil error:
    it returns normally, with either a non-nil provider and a nil error, or
    a nil provider and the not-found error whose message carries [n]. *)
Theorem Get_never_nil_nil p n s :
  ∃ r, Get p n s = Ok r s
       ∧ r ≠ (None, None)
       ∧ ((∃ v, r = (Some v, None))
          ∨ r = (None, Some ("no provider for " +:+ n +:+ " exists"))).
Proof.
  rewrite Get_eq.
  destruct (default None (contents s (providers s) !! n)) as [v|].
  - exists (Some v, None). repeat split; [discriminate|]. left. by exists v.
  - eexists. repeat split; [discriminate|]. by right.
Qed.

(** C6. [Use] is idempotent: [p.Use(vs...)] called twice in succession
    ends as one call does, in the same state (also when the second call
    starts from the state a panicking first call left); and within one call
    of non-nil providers the last provider that carries a name is the one
    registered under it. *)
Theorem Use_idempotent_last_wins :
  (∀ p vs s, bind (Use p vs) (λ _, Use p vs) s = Use p vs s)
  ∧ (∀ p vs s, Use p vs (final_state (Use p vs s)) = Use p vs s)
  ∧ (∀ l ws1 (v : T) ws2 s,
       (∀ w, w ∈ ws2 → Name w ≠ Name v) →
       ∃ s', Use (Some l) (Some <$> (ws1 ++ v :: ws2)%list) s = Ok tt s'
             ∧ contents s' (Some l) !! Name v = Some (Some v)).
Proof.
  split; [|split].
  - intros p vs s. unfold bind. pose proof (Use_idem p vs s) as Hidem.
    destruct (Use p vs s) as [[] s'|e s']; [exact Hidem|reflexivity].
  - apply Use_idem.
  - intros l pre v post s Hpost. eexists. split.
    + apply Use_Some_ok, not_nil_fmap_Some.
    + rewrite live_fmap_Some, contents_assign_all.
      by apply register_last_wins.
Qed.

(** C10. [p.Use(vs...)] changes only the entries of [p] whose key is the
    [Name()] of a provider in [vs]: the entry under any other name, every
    other map, and the variables are as before, however the call ends. *)
Theorem Use_changes_only_named p vs s n :
  (∀ v, Some v ∈ vs → Name v ≠ n) →
  let s' := final_state (Use p vs s) in
  contents s' p !! n = contents s p !! n
  ∧ (∀ l', p ≠ Some l' → maps s' !! l' = maps s !! l')
  ∧ providers s' = providers s
  ∧ vars s' = vars s
  ∧ DefaultClient s' = DefaultClient s.
Proof.
  intros Hn s'. subst s'. destruct p as [l|].
  - rewrite Use_Some_final.
    destruct (assign_all_unchanged l (live vs) s) as (-> & -> & ->).
    split; [|split; [|done]].
    + rewrite contents_assign_all. apply register_frame.
      intros v Hv. by apply Hn, elem_of_live.
    + intros l' Hne. apply maps_assign_all_ne. congruence.
  - by rewrite Use_nil_map_final.
Qed.

(** C7. [HTTPClientWithFallBack(nil)] returns [http.DefaultClient], and a
    non-nil client comes back as it was given; the call always returns and
    leaves the state as it found it. *)
Theorem HTTPClientWithFallBack_spec s :
  HTTPClientWithFallBack None s = Ok (DefaultClient s) s
  ∧ ∀ c, HTTPClientWithFallBack (Some c) s = Ok (Some c) s.
Proof. split; reflexivity. Qed.

(** C2. The package-level functions are the instance methods applied to the
    one shared registry; and on an empty shared registry, registering
    "github" and "google" makes [GetProviders()] hold exactly those two
    keys, after which registering a new "github" instance makes
    [GetProvider("github")] return the new one. *)
Theorem package_functions_on_shared_registry :
  (∀ vs s, UseProviders vs s = shared_Use vs s)
  ∧ (∀ n s, GetProvider n s = shared_Get n s)
  ∧ (∀ s, ClearProviders s = shared_Clear s)
  ∧ (∀ s, GetProviders s = shared_registry s)
  ∧ (∀ l s (github google github' : T),
       providers s = Some l → contents s (Some l) = ∅ →
       Name github = "github" → Name google = "google" →
       Name github' = "github" →
       ∃ s1 s2,
         UseProviders [Some github; Some google] s = Ok tt s1
         ∧ GetProviders s1 = Ok (Some l) s1
         ∧ dom (contents s1 (Some l)) = {[ "github"; "google" ]}
         ∧ UseProviders [Some github'] s1 = Ok tt s2
         ∧ GetProvider "github" s2 = Ok (Some github', None) s2
         ∧ dom (contents s2 (Some l)) = {[ "github"; "google" ]}).
Proof.
  do 4 (split; [reflexivity|]).
  intros l s g q g' Hp Hempty Hg Hq Hg'.
  set (s1 := assign l (assign l s g) q).
  assert (Hp1 : providers s1 = Some l) by exact Hp.
  assert (Hc1 : contents s1 (Some l) = <["google" := Some q]> {["github" := Some g]}).
  { unfold s1. rewrite !contents_assign, Hempty, Hg, Hq. by rewrite insert_empty. }
  assert (Hp2 : providers (assign l s1 g') = Some l) by exact Hp.
  exists s1, (assign l s1 g').
  split; [by rewrite UseProviders_eq, Hp|].
  split; [exact (f_equal (λ r, Ok r s1) Hp1)|].
  split; [rewrite Hc1, dom_insert_L, dom_singleton_L; set_solver|].
  split; [by rewrite UseProviders_eq, Hp1|].
  split.
  - rewrite GetProvider_eq, Get_eq, Hp2.
    by rewrite contents_assign, Hg', lookup_insert_eq.
  - rewrite contents_assign, Hc1, Hg', !dom_insert_L, dom_singleton_L.
    set_solver.
Qed.

End RegistryFacts.

(** C8. The sentinel [NoAuthUrlErrorMessage] is, character for character,
    "an AuthURL has not been set". *)
Theorem NoAuthUrlErrorMessage_verbatim :
  NoAuthUrlErrorMessage = "an AuthURL has not been set"
  ∧ String.length NoAuthUrlErrorMessage = 27.
Proof. split; reflexivity. Qed.

(** ** Runs with the [faux] provider *)

Lemma Use_idempotent_last_wins_run :
  (∀ w, w ∈ [Faux "google" 3] → Name w ≠ Name (Faux "github" 2))
  ∧ ∃ s', Use (Some 1%positive)
            (Some <$> ([Faux "github" 1] ++ Faux "github" 2 :: [Faux "google" 3])%list)
            init
          = Ok tt s'
          ∧ contents s' (Some 1%positive) !! Name (Faux "github" 2)
            = Some (Some (Faux "github" 2)).
Proof.
  assert (Hpost : ∀ w, w ∈ [Faux "google" 3] → Name w ≠ Name (Faux "github" 2)).
  { intros w Hw. apply list_elem_of_singleton in Hw. subst w. discriminate. }
  split; [exact Hpost|].
  exact (proj2 (proj2 Use_idempotent_last_wins) 1%positive
           [Faux "github" 1] (Faux "github" 2) [Faux "google" 3] init Hpost).
Defined.

Lemma Use_changes_only_named_run :
  (∀ v, Some v ∈ [Some (Faux "github" 2)] → Name v ≠ "google")
  ∧ contents
      (final_state (Use (Some 1%positive) [Some (Faux "github" 2)]
         (final_state (Use (Some 1%positive) [Some (Faux "google" 3)] init))))
      (Some 1%positive) !! "google"
    = Some (Some (Faux "google" 3)).
Proof.
  assert (Hn : ∀ v, Some v ∈ [Some (Faux "github" 2)] → Name v ≠ "google").
  { intros v Hv. apply list_elem_of_singleton in Hv. injection Hv as ->.
    discriminate. }
  split; [exact Hn|].
  pose proof (Use_changes_only_named (Some 1%positive) [Some (Faux "github" 2)]
    (final_state (Use (Some 1%positive) [Some (Faux "google" 3)] init))
    "google" Hn) as Hframe.
  cbv zeta in Hframe. destruct Hframe as [Hframe _].
  etrans; [exact Hframe|reflexivity].
Defined.

Lemma package_functions_on_shared_registry_run :
  ∃ s1 s2,
    UseProviders [Some (Faux "github" 1); Some (Faux "google" 3)] init = Ok tt s1
    ∧ GetProviders s1 = Ok (Some 1%positive) s1
    ∧ dom (contents s1 (Some 1%positive)) = {[ "github"; "google" ]}
    ∧ UseProviders [Some (Faux "github" 2)] s1 = Ok tt s2
    ∧ GetProvider "github" s2 = Ok (Some (Faux "github" 2), None) s2
    ∧ dom (contents s2 (Some 1%positive)) = {[ "github"; "google" ]}.
Proof.
  apply (proj2 (proj2 (proj2 (proj2 package_functions_on_shared_registry)))
           1%positive init (Faux "github" 1) (Faux "google" 3) (Faux "github" 2));
    reflexivity.
Defined.

(** ** The lookup of a registry other than the shared one

    [Get] reads the package variable [providers] whatever its receiver is
    ([Get_receiver_irrelevant]), so what a registry of the caller's own
    holds and what [Get] on it answers come apart. *)

(** C1, evaluated on a registry of the caller's own, next to a shared
    registry that differs from it: after [p.Use(v)] the provider is in [p],
    yet [p.Get(v.Name())] returns nil and the not-found error; and with
    "github" registered in the shared registry only, [p.Get("github")]
    returns that provider although [p] has no entry under the name. *)
Theorem Get_misses_own_registry :
  (∃ p s', own_Use_Get (Some (Faux "github" 1)) "github" init
             = Ok (p, (None, Some "no provider for github exists")) s'
           ∧ contents s' p !! "github" = Some (Some (Faux "github" 1)))
  ∧ (∃ p s', own_Get_unregistered (Some (Faux "github" 1)) "github" init
             = Ok (p, (Some (Faux "github" 1), None)) s'
           ∧ contents s' p !! "github" = None).
Proof.
  split; do 2 eexists; (split; [vm_compute; reflexivity|]);
    vm_compute; reflexivity.
Qed.

(** C3, evaluated on a registry of the caller's own: after [p.Use(a)] and
    [p.Use(b)] with both named "github", [p] holds the one entry
    "github", bound to [b]; yet [p.Get("github")] returns neither [b] nor
    [a] but nil and the not-found error. *)
Theorem Use_twice_Get_misses_own_registry :
  ∃ p s', own_Use_Use_Get (Some (Faux "github" 1)) (Some (Faux "github" 2))
            "github" init
          = Ok (p, (None, Some "no provider for github exists")) s'
          ∧ contents s' p = {[ "github" := Some (Faux "github" 2) ]}.
Proof.
  do 2 eexists. split; [vm_compute; reflexivity|].
  vm_compute. reflexivity.
Qed.

(** C4, evaluated on a registry of the caller's own: after [p.Clear()] the
    registry [p] is empty, yet [p.Get("github")] does not fail: it returns
    the provider the shared registry holds under that name. *)
Theorem Clear_Get_finds_shared_provider :
  ∃ p s', own_Clear_Get (Some (Faux "github" 1)) (Some (Faux "github" 2))
            "github" init
          = Ok (p, (Some (Faux "github" 1), None)) s'
          ∧ contents s' p = ∅.
Proof.
  do 2 eexists. split; [vm_compute; reflexivity|].
  vm_compute. reflexivity.
Qed.

(** * Further properties of the registry *)

Section RegistryMore.
Context {T : Type} `{ProviderImpl T}.
Implicit Types (s : State T) (p : Providers) (l : loc) (n : string)
  (vs : list (Provider T)) (ws : list T) (m : gmap string (Provider T)).

Lemma dom_register m ws :
  dom (register m ws) = dom m ∪ list_to_set (Name <$> ws).
Proof.
  induction ws as [|w ws IH] using rev_ind.
  - simpl. by rewrite (right_id_L ∅ (∪)).
  - rewrite register_snoc, dom_insert_L, IH, fmap_app, list_to_set_app_L.
    simpl. rewrite (right_id_L ∅ (∪)), (comm_L (∪) {[Name w]}).
    by rewrite (assoc_L (∪)).
Qed.

Lemma live_stops_at_nil ws vs : live ((Some <$> ws) ++ None :: vs) = ws.
Proof. induction ws as [|w ws IH]; [reflexivity|]. simpl. f_equal. exact IH. Qed.

Lemma final_state_contents_other l vs s p :
  p ≠ Some l →
  contents (final_state (Use (Some l) vs s)) p = contents s p.
Proof.
  intros Hne. rewrite Use_Some_final. destruct p as [l'|]; [|reflexivity].
  unfold contents. rewrite maps_assign_all_ne; [reflexivity|congruence].
Qed.

(** X1. A nil provider stops [Use] with a nil-dereference panic: the
    providers before it have been registered, in order, the ones after it
    have not, and nothing else has changed. *)
Theorem Use_stops_at_nil_provider l ws vs s :
  ∃ s', Use (Some l) ((Some <$> ws) ++ None :: vs) s = Panic NilDereference s'
        ∧ contents s' (Some l) = register (contents s (Some l)) ws
        ∧ (∀ l', l' ≠ l → maps s' !! l' = maps s !! l')
        ∧ providers s' = providers s
        ∧ vars s' = vars s.
Proof.
  exists (assign_all l ws s). split; [|split; [|split]].
  - rewrite Use_Some_panic, live_stops_at_nil; [reflexivity|].
    apply elem_of_app. right. by left.
  - apply contents_assign_all.
  - intros l' Hne. by apply maps_assign_all_ne.
  - by destruct (assign_all_unchanged l ws s) as (-> & -> & _).
Qed.

(** X2. [Use] on a non-nil map returns normally exactly when none of the
    providers is nil. *)
Theorem Use_returns_iff_no_nil_provider l vs s :
  (∃ s', Use (Some l) vs s = Ok tt s') ↔ None ∉ vs.
Proof.
  split.
  - intros [s' Hok] Hin. by rewrite Use_Some_panic in Hok.
  - intros Hnil. eexists. by apply Use_Some_ok.
Qed.

(** X3. [Use] on a nil map with at least one provider panics before it
    changes anything: with a nil dereference when the first provider is
    nil ([Name()] is called first), with an assignment to an entry of a nil
    map otherwise. *)
Theorem Use_nil_map_panics vs s :
  vs ≠ [] →
  Use None vs s =
    Panic match vs with
          | None :: _ => NilDereference
          | _ => NilMapAssignment
          end s.
Proof. destruct vs as [|[v|] vs]; [done|reflexivity|reflexivity]. Qed.

(** X4. One call of [Use] with a list is the same as a call with a first
    part of the list followed by a call with the rest. *)
Theorem Use_app p vs1 vs2 s :
  Use p (vs1 ++ vs2) s = bind (Use p vs1) (λ _, Use p vs2) s.
Proof.
  revert s. induction vs1 as [|[v|] vs1 IH]; intros s.
  - reflexivity.
  - destruct p as [l|]; [|reflexivity].
    change (Use (Some l) (vs1 ++ vs2) (assign l s v)
            = bind (Use (Some l) vs1) (λ _, Use (Some l) vs2) (assign l s v)).
    apply IH.
  - reflexivity.
Qed.

(** X5. The keys of a map after [Use], however the call ends, are the keys
    it had together with the names of the providers the call reached: [Use]
    removes no entry. *)
Theorem Use_dom l vs s :
  dom (contents (final_state (Use (Some l) vs s)) (Some l))
  = dom (contents s (Some l)) ∪ list_to_set (Name <$> live vs).
Proof. by rewrite Use_Some_final, contents_assign_all, dom_register. Qed.

Lemma returned_Get p n s :
  returned (Get p n s) =
    Some match default None (contents s (providers s) !! n) with
         | Some v => (Some v, None)
         | None => (None, Some (no_provider_error n))
         end.
Proof. by rewrite Get_eq. Qed.

(** X6. Registering into a map other than the one the package variable
    holds changes no lookup: after it, [Get] on any receiver still returns
    what [GetProvider] returned before. *)
Theorem Use_elsewhere_keeps_lookups l vs s p n :
  providers s ≠ Some l →
  returned (Get p n (final_state (Use (Some l) vs s)))
  = returned (GetProvider n s).
Proof.
  intros Hne. rewrite GetProvider_eq, !returned_Get.
  assert (Hp : providers (final_state (Use (Some l) vs s)) = providers s).
  { rewrite Use_Some_final.
    by destruct (assign_all_unchanged l (live vs) s) as (-> & _). }
  by rewrite Hp, final_state_contents_other.
Qed.

Lemma Clear_contents (q : ProvidersPtr) s (r : Providers) :
  contents (final_state (Clear q s)) r = contents s r.
Proof.
  assert (Hm : maps (final_state (Clear q s))
               = <[fresh (dom (maps s)) := ∅]> (maps s)).
  { by destruct q. }
  destruct r as [l|]; [|reflexivity].
  unfold contents. rewrite Hm.
  destruct (decide (l = fresh (dom (maps s)))) as [->|Hne].
  - rewrite lookup_insert_eq.
    by rewrite (proj1 (not_elem_of_dom (maps s) _) (is_fresh (dom (maps s)))).
  - by rewrite lookup_insert_ne.
Qed.

(** X7. [Clear] changes no existing map: every [Providers] value shows
    after the call the entries it showed before, whichever variable is
    cleared and however the call ends. *)
Theorem Clear_keeps_every_map (q : ProvidersPtr) s (r : Providers) :
  contents (final_state (Clear q s)) r = contents s r.
Proof. apply Clear_contents. Qed.

(** X8. [Clear] through a nil pointer panics with a nil dereference, and
    leaves the shared registry, the other variables and every map as they
    were. *)
Theorem Clear_nil_pointer s :
  ∃ s', Clear PNil s = Panic NilDereference s'
        ∧ providers s' = providers s
        ∧ vars s' = vars s
        ∧ ∀ r : Providers, contents s' r = contents s r.
Proof.
  eexists. split; [reflexivity|]. split; [reflexivity|].
  split; [reflexivity|]. intros r. apply (Clear_contents PNil).
Qed.

(** X9. Clearing a registry variable of the caller's own returns normally,
    leaves that variable with an empty map, and changes no lookup: [Get] on
    any receiver still returns what [GetProvider] returned before. *)
Theorem Clear_own_keeps_lookups (x : loc) s p n :
  ∃ s', Clear (PVar x) s = Ok tt s'
        ∧ contents s' (default None (vars s' !! x)) = ∅
        ∧ returned (Get p n s') = returned (GetProvider n s).
Proof.
  destruct (Clear_var x s) as (s' & Hc & Hempty & Hp).
  exists s'. split; [exact Hc|]. split; [exact Hempty|].
  rewrite GetProvider_eq, !returned_Get, Hp.
  replace s' with (final_state (Clear (PVar x) s)) by by rewrite Hc.
  by rewrite Clear_contents.
Qed.

(** X10. The map [GetProviders()] returned before [ClearProviders()] is not
    emptied by it and is cut off from the registry: it keeps its entries,
    and providers registered afterwards go to the new map only. *)
Theorem GetProviders_handle_outlives_Clear l ws s :
  providers s = Some l → is_Some (maps s !! l) →
  ∃ s1 s2, ClearProviders s = Ok tt s1
           ∧ UseProviders (Some <$> ws) s1 = Ok tt s2
           ∧ contents s2 (Some l) = contents s (Some l)
           ∧ contents s2 (providers s2) = register ∅ ws.
Proof.
  intros Hp [m Hl].
  destruct (ClearProviders_eq s) as (s1 & l1 & Hc & Hp1 & Hfresh & Hempty).
  assert (Hne : l ≠ l1) by congruence.
  destruct (assign_all_unchanged l1 ws s1) as (Hp2 & _).
  exists s1, (assign_all l1 ws s1). split; [exact Hc|]. split; [|split].
  - rewrite UseProviders_eq, Hp1, Use_Some_ok by apply not_nil_fmap_Some.
    by rewrite live_fmap_Some.
  - transitivity (contents s1 (Some l)).
    + unfold contents. by rewrite maps_assign_all_ne.
    + replace s1 with (final_state (ClearProviders s)) by by rewrite Hc.
      apply (Clear_contents PGlobal).
  - rewrite Hp2, Hp1, contents_assign_all. by rewrite <- Hp1, Hempty.
Qed.

(** X11. After [ClearProviders()], [UseProviders] of non-nil providers
    leaves a registry whose keys are exactly their names, and
    [GetProvider(n)] returns the last of them named [n], or the not-found
    error when none is. *)
Theorem ClearProviders_UseProviders ws s :
  ∃ s1 s2, ClearProviders s = Ok tt s1
           ∧ UseProviders (Some <$> ws) s1 = Ok tt s2
           ∧ dom (contents s2 (providers s2)) = list_to_set (Name <$> ws)
           ∧ ∀ n, returned (GetProvider n s2) =
                    Some match last_named n ws with
                         | Some v => (Some v, None)
                         | None => (None, Some (no_provider_error n))
                         end.
Proof.
  destruct (ClearProviders_eq s) as (s1 & l1 & Hc & Hp1 & _ & Hempty).
  destruct (assign_all_unchanged l1 ws s1) as (Hp2 & _).
  assert (Hc2 : contents (assign_all l1 ws s1) (providers (assign_all l1 ws s1))
                = register ∅ ws).
  { rewrite Hp2, Hp1, contents_assign_all. by rewrite <- Hp1, Hempty. }
  exists s1, (assign_all l1 ws s1). split; [exact Hc|]. split; [|split].
  - rewrite UseProviders_eq, Hp1, Use_Some_ok by apply not_nil_fmap_Some.
    by rewrite live_fmap_Some.
  - by rewrite Hc2, dom_register, dom_empty_L, (left_id_L ∅ (∪)).
  - intros n. rewrite GetProvider_eq, returned_Get, Hc2, lookup_register.
    destruct (last_named n ws); [reflexivity|]. by rewrite lookup_empty.
Qed.

(** *** The order of providers with distinct names *)

Lemma filter_named_NoDup n ws :
  NoDup (Name <$> ws) →
  filter (λ v, Name v = n) ws = [] ∨ ∃ w, filter (λ v, Name v = n) ws = [w].
Proof.
  induction ws as [|w ws IH]; [by left|].
  rewrite fmap_cons, NoDup_cons. intros [Hw Hws].
  rewrite filter_cons. case_decide as Hn; [|by apply IH].
  right. exists w. f_equal.
  destruct (IH Hws) as [Hnil|[w' Hw']]; [exact Hnil|].
  exfalso. apply Hw.
  assert (Hin : w' ∈ filter (λ v, Name v = n) ws) by (rewrite Hw'; by left).
  apply list_elem_of_filter in Hin as [Hn' Hin].
  apply list_elem_of_fmap. exists w'. split; [congruence|exact Hin].
Qed.

Lemma last_named_Permutation n ws1 ws2 :
  ws1 ≡ₚ ws2 → NoDup (Name <$> ws1) → last_named n ws1 = last_named n ws2.
Proof.
  intros Hperm Hnd. unfold last_named.
  assert (Hf : filter (λ v, Name v = n) ws1 ≡ₚ filter (λ v, Name v = n) ws2)
    by by rewrite Hperm.
  destruct (filter_named_NoDup n ws1 Hnd) as [Hnil|[w Hw]].
  - rewrite Hnil in Hf |- *. apply Permutation_nil_l in Hf. by rewrite <- Hf.
  - rewrite Hw in Hf |- *. apply Permutation_singleton_l in Hf. by rewrite <- Hf.
Qed.

Lemma assign_all_Permutation l ws1 ws2 s :
  ws1 ≡ₚ ws2 → NoDup (Name <$> ws1) → assign_all l ws1 s = assign_all l ws2 s.
Proof.
  intros Hperm Hnd.
  destruct (decide (ws1 = [])) as [->|Hne1].
  { apply Permutation_nil_l in Hperm. by subst ws2. }
  assert (Hne2 : ws2 ≠ []).
  { intros ->. by apply Permutation_nil_r in Hperm. }
  destruct (assign_all_unchanged l ws1 s) as (Hp1 & Hv1 & Hd1).
  destruct (assign_all_unchanged l ws2 s) as (Hp2 & Hv2 & Hd2).
  apply State_eq; [|congruence..].
  apply map_eq. intros l'. destruct (decide (l' = l)) as [->|Hne].
  - rewrite !maps_assign_all_eq by done. f_equal.
    apply map_eq. intros n. rewrite !lookup_register.
    by rewrite (last_named_Permutation n ws1 ws2).
  - by rewrite !maps_assign_all_ne.
Qed.

(** X12. When the providers of a call report pairwise distinct names, the
    order in which they are passed to [Use] does not matter. *)
Theorem Use_order_irrelevant l ws1 ws2 s :
  ws1 ≡ₚ ws2 → NoDup (Name <$> ws1) →
  Use (Some l) (Some <$> ws1) s = Use (Some l) (Some <$> ws2) s.
Proof.
  intros Hperm Hnd.
  rewrite !Use_Some_ok by apply not_nil_fmap_Some.
  by rewrite !live_fmap_Some, (assign_all_Permutation l ws1 ws2).
Qed.

(** X13. [HTTPClientWithFallBack] returns nil only when both its argument
    and [http.DefaultClient] are nil, and given its own result it returns
    that result again. *)
Theorem HTTPClientWithFallBack_nil_and_again (h : HTTPClient) s :
  ∃ c, HTTPClientWithFallBack h s = Ok c s
       ∧ (c = None ↔ h = None ∧ DefaultClient s = None)
       ∧ HTTPClientWithFallBack c s = Ok c s.
Proof.
  destruct h as [a|].
  - exists (Some a). split; [reflexivity|]. split; [|reflexivity].
    split; [discriminate|]. by intros [? _].
  - exists (DefaultClient s). split; [reflexivity|]. split; [by split; [|intros []]|].
    by destruct (DefaultClient s) eqn:Hd; simpl; unfold gets; rewrite ?Hd.
Qed.

End RegistryMore.

(** * The not-found message and the client context *)

Lemma string_length_app (a b : string) :
  String.length (a +:+ b) = String.length a + String.length b.
Proof. induction a as [|x a IH]; simpl; [reflexivity|]. by rewrite IH. Qed.

Lemma string_app_inj_l (a b c : string) : a +:+ c = b +:+ c → a = b.
Proof.
  revert b. induction a as [|x a IH]; intros [|y b] Heq.
  - reflexivity.
  - apply (f_equal String.length) in Heq.
    rewrite !string_length_app in Heq. simpl in Heq. lia.
  - apply (f_equal String.length) in Heq.
    rewrite !string_length_app in Heq. simpl in Heq. lia.
  - simpl in Heq. injection Heq as -> Heq. f_equal. by apply IH.
Qed.

(** X14. The not-found message determines the name that was looked up:
    two names with the same message are the same name; and no not-found
    message is the sentinel [NoAuthUrlErrorMessage]. *)
Theorem no_provider_error_inj :
  (∀ n1 n2, no_provider_error n1 = no_provider_error n2 → n1 = n2)
  ∧ (∀ n, no_provider_error n ≠ NoAuthUrlErrorMessage).
Proof.
  split.
  - intros n1 n2 Heq. unfold no_provider_error in Heq. simpl in Heq.
    injection Heq as Heq. exact (string_app_inj_l n1 n2 " exists" Heq).
  - intros n. discriminate.
Qed.

(** X15. [ContextForClient(h)] for a non-nil [h] binds [h] under
    [oauth2.HTTPClient]; every other key, and every key when [h] is nil,
    reads as in [oauth2.NoContext]. So the context it returns binds a nil
    client only if [oauth2.NoContext] does. *)
Theorem ContextForClient_Value (NoContext : Context) :
  (∀ h key,
     Value (ContextForClient NoContext h) key =
       match key, h with
       | HTTPClientKey, Some c => Some (ClientValue (Some c))
       | _, _ => Value NoContext key
       end)
  ∧ (∀ h,
       Value NoContext HTTPClientKey ≠ Some (ClientValue None) →
       Value (ContextForClient NoContext h) HTTPClientKey ≠ Some (ClientValue None)).
Proof.
  split.
  - intros [c|] [|k]; reflexivity.
  - intros [c|] Hnc; [discriminate|exact Hnc].
Qed.

(** ** Runs with the [faux] provider and a client *)

Lemma Use_nil_map_panics_run :
  [Some (Faux "github" 1); None] ≠ []
  ∧ Use None [Some (Faux "github" 1); None] init = Panic NilMapAssignment init.
Proof.
  assert (Hne : [Some (Faux "github" 1); None] ≠ []) by discriminate.
  split; [exact Hne|].
  exact (Use_nil_map_panics [Some (Faux "github" 1); None] init Hne).
Defined.

Lemma Use_elsewhere_keeps_lookups_run :
  providers (init (T := faux)) ≠ Some 2%positive
  ∧ returned (Get None "github"
       (final_state (Use (Some 2%positive) [Some (Faux "github" 1)] init)))
    = returned (GetProvider "github" init).
Proof.
  assert (Hne : providers (init (T := faux)) ≠ Some 2%positive) by discriminate.
  split; [exact Hne|].
  exact (Use_elsewhere_keeps_lookups 2%positive [Some (Faux "github" 1)] init
           None "github" Hne).
Defined.

Lemma GetProviders_handle_outlives_Clear_run :
  ∃ s1 s2,
    ClearProviders
      (final_state (UseProviders [Some (Faux "github" 1)] init)) = Ok tt s1
    ∧ UseProviders (Some <$> [Faux "google" 3]) s1 = Ok tt s2
    ∧ contents s2 (Some 1%positive)
      = contents (final_state (UseProviders [Some (Faux "github" 1)] init))
          (Some 1%positive)
    ∧ contents s2 (providers s2) = register ∅ [Faux "google" 3].
Proof.
  apply (GetProviders_handle_outlives_Clear 1%positive [Faux "google" 3]
           (final_state (UseProviders [Some (Faux "github" 1)] init))).
  - reflexivity.
  - vm_compute. by eexists.
Defined.

Lemma Use_order_irrelevant_run :
  Use (Some 1%positive) (Some <$> [Faux "github" 1; Faux "google" 3]) init
  = Use (Some 1%positive) (Some <$> [Faux "google" 3; Faux "github" 1]) init.
Proof.
  apply (Use_order_irrelevant 1%positive
           [Faux "github" 1; Faux "google" 3] [Faux "google" 3; Faux "github" 1]).
  - apply perm_swap.
  - vm_compute. repeat constructor; rewrite ?list_elem_of_In; simpl; intuition discriminate.
Defined.

Lemma no_provider_error_inj_run :
  no_provider_error "github" = no_provider_error ("git" +:+ "hub")
  ∧ "github" = "git" +:+ "hub".
Proof.
  assert (Heq : no_provider_error "github" = no_provider_error ("git" +:+ "hub"))
    by reflexivity.
  split; [exact Heq|].
  exact (proj1 no_provider_error_inj "github" ("git" +:+ "hub") Heq).
Defined.

Lemma ContextForClient_Value_run :
  Value EmptyContext HTTPClientKey ≠ Some (ClientValue None)
  ∧ Value (ContextForClient EmptyContext (Some 7%positive)) HTTPClientKey
    ≠ Some (ClientValue None).
Proof.
  assert (Hnc : Value EmptyContext HTTPClientKey ≠ Some (ClientValue None))
    by discriminate.
  split; [exact Hnc|].
  exact (proj2 (ContextForClient_Value EmptyContext) (Some 7%positive) Hnc).
Defined.
